(** * Control-Surface: shift-register inputs, increment selectors and
      bankable rotary encoders

    A shallow embedding of three headers of the library,

    - [src/AH/Hardware/ExtendedInputOutput/ShiftRegisterIn.hpp],
    - [src/Selectors/IncrementSelector.hpp],
    - [src/MIDI_Outputs/Bankable/Abstract/MIDIRotaryEncoder.hpp],

    together with the properties their specification states about them.
    Integers of the C++ code are values of [Z]; unsigned types wrap, and
    the undefined operations of [long] arithmetic are faults of an error
    monad. *)

From Stdlib Require Import ZArith NArith List Bool Lia.
Import ListNotations.

Local Open Scope Z_scope.

(* ===================================================================== *)
(** * Machine arithmetic *)
(* ===================================================================== *)

(** What a C++ expression can do besides yielding a value: the undefined
    operations of the arithmetic, and a callee that refuses a request. *)
Inductive fault : Set :=
| DivisionByZero
| SignedOverflow
| UndefinedShift
| Rejected.

Inductive result (A : Type) : Type :=
| Ok (a : A)
| Fault (f : fault).

Arguments Ok {A} a.
Arguments Fault {A} f.

Definition bind {A B : Type} (r : result A) (k : A -> result B) : result B :=
  match r with
  | Ok a => k a
  | Fault f => Fault f
  end.

Declare Scope result_scope.
Delimit Scope result_scope with result.
Notation "x <- e ;; k" := (bind e (fun x => k))
  (at level 61, e at next level, right associativity) : result_scope.

(** [uint8_t]: conversion to the type reduces modulo 256. *)
Definition to_uint8 (z : Z) : Z := z mod 256.

(** [long] on the targets of the library (AVR, ARM Cortex-M, ESP) is a
    32-bit two's complement integer. *)
Definition LONG_BITS : Z := 32.
Definition LONG_MIN : Z := - 2 ^ (LONG_BITS - 1).
Definition LONG_MAX : Z := 2 ^ (LONG_BITS - 1) - 1.

Definition in_long (z : Z) : bool := (LONG_MIN <=? z) && (z <=? LONG_MAX).

(** The mathematical result of a [long] operation is its value when it is
    representable; otherwise behaviour is undefined. *)
Definition long_of (z : Z) : result Z :=
  if in_long z then Ok z else Fault SignedOverflow.

Definition long_add (a b : Z) : result Z := long_of (a + b).
Definition long_sub (a b : Z) : result Z := long_of (a - b).
Definition long_mul (a b : Z) : result Z := long_of (a * b).

(** [a / b] on [long]: truncation toward zero, undefined for [b == 0]. *)
Definition long_div (a b : Z) : result Z :=
  if b =? 0 then Fault DivisionByZero else long_of (Z.quot a b).

(* ===================================================================== *)
(** * Banks *)
(* ===================================================================== *)

(** Modelled from the spec: [Bank], [OutputBankConfig],
    [BankableMIDIOutput::getAddressOffset], [MIDICNChannelAddress] and its
    addition live in [Banks/] and [Def/], which the sources at hand do not
    include.  A Bank is a shared value holding an index into a fixed number
    of settings; a Bankable Output holds a reference to the Bank and a
    stride, and its offset is index times stride.  Addresses are
    integers. *)
Record Bank : Set := mkBank {
  index : Z;
  numberOfSettings : Z
}.

Definition select (i : Z) (b : Bank) : Bank :=
  {| index := i; numberOfSettings := numberOfSettings b |}.

Record OutputBankConfig : Set := mkConfig {
  stride : Z
}.

Definition getAddressOffset (bank : Bank) (config : OutputBankConfig) : Z :=
  index bank * stride config.

(* ===================================================================== *)
(** * Bankable::MIDIRotaryEncoder *)
(* ===================================================================== *)

Module MIDIRotaryEncoder.

Local Open Scope result_scope.

(** The members of the class.  The Bank itself is not a member: the
    element only refers to it, so every operation receives the Bank as it
    is when the operation runs. *)
Record t : Set := mk {
  config : OutputBankConfig;
  address : Z;
  speedMultiply : Z;
  pulsesPerStep : Z;
  previousPosition : Z
}.

(** The constructor: both scalars are [uint8_t] parameters, and
    [previousPosition] starts at zero. *)
Definition make (config : OutputBankConfig) (address : Z)
    (speedMultiply pulsesPerStep : Z) : t :=
  {| config := config;
     address := address;
     speedMultiply := to_uint8 speedMultiply;
     pulsesPerStep := to_uint8 pulsesPerStep;
     previousPosition := 0 |}.

Definition set_previousPosition (e : t) (p : Z) : t :=
  {| config := config e;
     address := address e;
     speedMultiply := speedMultiply e;
     pulsesPerStep := pulsesPerStep e;
     previousPosition := p |}.

(** A call of the [send] policy: the relative value and the address. *)
Definition event : Set := (Z * Z)%type.

(** [update()].  [bank] is the Bank at the time of the call and
    [currentPosition] is what [encoder.read()] returns.  The result is the
    element after the call and the events sent during it. *)
Definition update (bank : Bank) (currentPosition : Z) (e : t)
  : result (t * list event) :=
  let sendAddress := address e + getAddressOffset bank (config e) in
  raw <- long_sub currentPosition (previousPosition e) ;;
  difference <- long_div raw (pulsesPerStep e) ;;
  if difference =? 0 then Ok (e, [])
  else
    value <- long_mul difference (speedMultiply e) ;;
    step <- long_mul difference (pulsesPerStep e) ;;
    next <- long_add (previousPosition e) step ;;
    Ok (set_previousPosition e next, [(value, sendAddress)]).

(** The number of whole steps between [previousPosition] and a position,
    as the specification writes it: truncating division by
    [pulsesPerStep]. *)
Definition delta (currentPosition : Z) (e : t) : Z :=
  Z.quot (currentPosition - previousPosition e) (pulsesPerStep e).

(** Polling a sequence of positions, the Bank staying as it is. *)
Fixpoint poll (bank : Bank) (positions : list Z) (e : t)
  : result (t * list event) :=
  match positions with
  | [] => Ok (e, [])
  | p :: rest =>
      r1 <- update bank p e ;;
      r2 <- poll bank rest (fst r1) ;;
      Ok (fst r2, snd r1 ++ snd r2)
  end.

(** The sum of the values of a list of events. *)
Fixpoint total (evs : list event) : Z :=
  match evs with
  | [] => 0
  | ev :: rest => fst ev + total rest
  end.

End MIDIRotaryEncoder.

(* ===================================================================== *)
(** * IncrementSelector *)
(* ===================================================================== *)

Module IncrementSelector.

Local Open Scope result_scope.

(** What [IncrementButton::getState()] reports for one poll. *)
Inductive ButtonState : Set :=
| Nothing
| Increment.

Section Setting.

(** [setting_t] is an unsigned integer type declared in [Def/Def.hpp];
    the number of its values is a parameter of the model. *)
Variable setting_values : Z.

Definition to_setting (z : Z) : Z := z mod setting_values.

(** The members of the class; the Selectable it drives is the shared
    Bank. *)
Record t : Set := mk {
  wrap : bool
}.

(** What [Selector::set] does with a request for an index outside
    [0, numberOfSettings): the specification has it rejected or clamped;
    the code that decides is not among the sources, so it is a parameter,
    and it may fail. *)
Variable out_of_range : Z -> Bank -> result Bank.

(** Modelled from the spec: [Selector::get], [Selector::set] and
    [Selector::getNumberOfSettings] are defined in [Selectors/Selector.hpp],
    which the sources at hand do not include.  The Selector reads and
    writes the index of its Selectable; a request for an index inside
    [0, numberOfSettings) is stored, any other goes to [out_of_range]. *)
Definition get (bank : Bank) : Z := index bank.

Definition getNumberOfSettings (bank : Bank) : Z := numberOfSettings bank.

Definition set (newSetting : Z) (bank : Bank) : result Bank :=
  if (0 <=? newSetting) && (newSetting <? numberOfSettings bank)
  then Ok (select newSetting bank)
  else out_of_range newSetting bank.

(** [increment()].  [setting++] wraps in [setting_t]; [setting - 1] is
    computed in [int] and converted back on assignment. *)
Definition increment (sel : t) (bank : Bank) : result Bank :=
  let setting := get bank in
  let setting := to_setting (setting + 1) in
  let setting :=
    if setting =? getNumberOfSettings bank
    then (if wrap sel then 0 else to_setting (setting - 1))
    else setting in
  set setting bank.


(** [update()]. *)
Definition update (sel : t) (button : ButtonState) (bank : Bank)
  : result Bank :=
  match button with
  | Increment => increment sel bank
  | Nothing => Ok bank
  end.

(** A series of polls, one button state each, as the main loop makes
    them. *)
Fixpoint run (sel : t) (buttons : list ButtonState) (bank : Bank)
  : result Bank :=
  match buttons with
  | [] => Ok bank
  | b :: rest =>
      bank' <- update sel b bank ;;
      run sel rest bank'
  end.

(** How many polls of a series saw an increment event. *)
Fixpoint presses (buttons : list ButtonState) : Z :=
  match buttons with
  | [] => 0
  | Increment :: rest => 1 + presses rest
  | Nothing :: rest => presses rest
  end.

End Setting.

End IncrementSelector.

(* ===================================================================== *)
(** * ShiftRegisterIn *)
(* ===================================================================== *)

Module ShiftRegisterIn.

Inductive PinStatus : Set :=
| LOW
| HIGH.

(** The four pins the object is constructed on, named by the line of the
    shift register each one is wired to. *)
Inductive line : Set :=
| dataPin
| clockPin
| clockEnablePin
| loadPin.

Inductive PinMode_t : Set :=
| INPUT
| INPUT_PULLUP
| OUTPUT.

Inductive BitOrder : Set :=
| LSBFIRST
| MSBFIRST.

(** What happens on the lines, in order. *)
Inductive activity : Set :=
| ModeSet (l : line) (m : PinMode_t)
| Wrote (l : line) (v : PinStatus)
| ShiftedIn (b : bool).

(** Modelled from the spec: the shift register and the lines to it are
    hardware, reached through [ExtIO::digitalWrite] and [shiftIn], neither
    of which is part of the sources at hand.  [inputs] are the physical
    parallel inputs (bit [k] is input [k]); a low-then-high pulse on the
    latch line captures them into [storage]; while clock-enable is low each
    clocked bit leaves [storage] on the data line, least significant
    first. *)
Record Hardware : Set := mkHardware {
  inputs : Z;
  clock : PinStatus;
  clockEnable : PinStatus;
  load : PinStatus;
  storage : Z;
  trace : list activity
}.

Definition ExtIO_digitalWrite_hw (l : line) (v : PinStatus) (h : Hardware)
  : Hardware :=
  let t := trace h ++ [Wrote l v] in
  match l with
  | dataPin =>
      mkHardware (inputs h) (clock h) (clockEnable h) (load h) (storage h) t
  | clockPin =>
      mkHardware (inputs h) v (clockEnable h) (load h) (storage h) t
  | clockEnablePin =>
      mkHardware (inputs h) (clock h) v (load h) (storage h) t
  | loadPin =>
      let captured :=
        match load h, v with
        | LOW, HIGH => inputs h
        | _, _ => storage h
        end in
      mkHardware (inputs h) (clock h) (clockEnable h) v captured t
  end.

Definition ExtIO_pinMode_hw (l : line) (m : PinMode_t) (h : Hardware)
  : Hardware :=
  mkHardware (inputs h) (clock h) (clockEnable h) (load h) (storage h)
    (trace h ++ [ModeSet l m]).

(** One clock period: the data line carries bit 0 of [storage], and the
    register moves on when its clock is enabled. *)
Definition clock_bit (h : Hardware) : bool * Hardware :=
  let b := Z.testbit (storage h) 0 in
  let next :=
    match clockEnable h with
    | LOW => Z.shiftr (storage h) 1
    | HIGH => storage h
    end in
  (b, mkHardware (inputs h) (clock h) (clockEnable h) (load h) next
        (trace h ++ [ShiftedIn b])).

Fixpoint shiftIn_loop (count : nat) (width : Z) (order : BitOrder)
    (i : Z) (value : Z) (h : Hardware) : Z * Hardware :=
  match count with
  | O => (value, h)
  | S count' =>
      let (b, h') := clock_bit h in
      let place :=
        match order with
        | LSBFIRST => i
        | MSBFIRST => width - 1 - i
        end in
      shiftIn_loop count' width order (i + 1)
        (Z.lor value (Z.shiftl (Z.b2z b) place)) h'
  end.

(** [shiftIn(dataPin, clockPin, bitOrder)] of the Arduino core, which is
    not part of the library: the call takes no bit count and returns a
    [uint8_t]; it clocks in the eight bits of one byte in the given
    order. *)
Definition shiftIn_hw (order : BitOrder) (h : Hardware) : Z * Hardware :=
  shiftIn_loop 8 8 order 0 0 h.

(** [int] has sixteen bits on the AVR boards and thirty-two on the ARM
    and ESP boards, never fewer than sixteen; [int_excess] is how many it
    has beyond sixteen on the board at hand. *)
Definition INT_BITS (int_excess : N) : Z := 16 + Z.of_N int_excess.

(** [bitRead(value, bit)] of the Arduino core, the macro
    [(((value) >> (bit)) & 0x01)].  The value read is the [uint8_t] buffer,
    promoted to [int]; shifting an [int] by its width or more is
    undefined. *)
Definition bitRead (int_excess : N) (value : Z) (bit : N) : result Z :=
  if Z.of_N bit <? INT_BITS int_excess
  then Ok (Z.land (Z.shiftr value (Z.of_N bit)) 1)
  else Fault UndefinedShift.

(** The object: its one mutable member and the hardware it drives. *)
Record State : Set := mkState {
  buffer : Z;
  hw : Hardware
}.

(** Member functions are state transformers. *)
Definition M (A : Type) : Type := State -> A * State.

Definition ret {A : Type} (a : A) : M A := fun s => (a, s).

Definition bindM {A B : Type} (m : M A) (k : A -> M B) : M B :=
  fun s => let (a, s') := m s in k a s'.

Definition exec {A : Type} (m : M A) (s : State) : State := snd (m s).
Definition eval {A : Type} (m : M A) (s : State) : A := fst (m s).

Declare Scope member_scope.
Delimit Scope member_scope with member.
Notation "x <- e ;; k" := (bindM e (fun x => k))
  (at level 61, e at next level, right associativity) : member_scope.
Notation "e ;; k" := (bindM e (fun _ => k))
  (at level 61, right associativity) : member_scope.

Local Open Scope member_scope.

Definition ExtIO_digitalWrite (l : line) (v : PinStatus) : M unit :=
  fun s => (tt, mkState (buffer s) (ExtIO_digitalWrite_hw l v (hw s))).

Definition ExtIO_pinMode (l : line) (m : PinMode_t) : M unit :=
  fun s => (tt, mkState (buffer s) (ExtIO_pinMode_hw l m (hw s))).

Definition shiftIn (order : BitOrder) : M Z :=
  fun s => let (v, h) := shiftIn_hw order (hw s) in
           (to_uint8 v, mkState (buffer s) h).

Definition set_buffer (v : Z) : M unit :=
  fun s => (tt, mkState v (hw s)).

(** [pinMode(pin_t, PinMode_t mode)] and its buffered form: the pin
    argument has no name and no use, the mode goes to the data pin. *)
Definition pinMode (mode : PinMode_t) : M unit :=
  ExtIO_pinMode dataPin mode.

Definition pinModeBuffered (mode : PinMode_t) : M unit := pinMode mode.

(** The deprecated write family: empty bodies. *)
Definition digitalWrite (pin : N) (status : PinStatus) : M unit := ret tt.
Definition digitalWriteBuffered (pin : N) (status : PinStatus) : M unit :=
  ret tt.
Definition analogWrite (pin : N) (value : Z) : M unit := ret tt.
Definition analogWriteBuffered (pin : N) (value : Z) : M unit := ret tt.

Definition digitalRead (int_excess : N) (pin : N) : M (result Z) :=
  fun s => (bitRead int_excess (buffer s) pin, s).

Definition digitalReadBuffered (int_excess : N) (pin : N) : M (result Z) :=
  fun s => (bitRead int_excess (buffer s) pin, s).

Definition analogRead (pin : N) : M Z := ret 0.

Definition analogReadBuffered (pin : N) : M Z := analogRead pin.

Definition begin : M unit :=
  ExtIO_pinMode clockPin OUTPUT ;;
  ExtIO_pinMode clockEnablePin OUTPUT ;;
  ExtIO_pinMode loadPin OUTPUT ;;
  ExtIO_digitalWrite clockPin LOW ;;
  ExtIO_digitalWrite loadPin HIGH ;;
  ExtIO_digitalWrite clockEnablePin HIGH.

Definition updateBufferedOutputs : M unit := ret tt.

Definition prepareReading : M unit :=
  ExtIO_digitalWrite loadPin LOW ;;
  ExtIO_digitalWrite loadPin HIGH ;;
  ExtIO_digitalWrite clockEnablePin LOW.

Definition afterReading : M unit :=
  ExtIO_digitalWrite clockEnablePin HIGH.

(** [updateBufferedInputs()] of [ShiftRegisterIn<N>].  [N] is the
    template argument of the class; the body makes no use of it. *)
Definition updateBufferedInputs (N : nat) : M unit :=
  prepareReading ;;
  v <- shiftIn LSBFIRST ;;
  set_buffer v ;;
  afterReading.

(** A call of one of the write-family members. *)
Inductive write_call : Set :=
| DigitalWrite (pin : N) (status : PinStatus)
| DigitalWriteBuffered (pin : N) (status : PinStatus)
| AnalogWrite (pin : N) (value : Z)
| AnalogWriteBuffered (pin : N) (value : Z).

Definition call (c : write_call) : M unit :=
  match c with
  | DigitalWrite p v => digitalWrite p v
  | DigitalWriteBuffered p v => digitalWriteBuffered p v
  | AnalogWrite p a => analogWrite p a
  | AnalogWriteBuffered p a => analogWriteBuffered p a
  end.

Fixpoint calls (cs : list write_call) : M unit :=
  match cs with
  | [] => ret tt
  | c :: rest => call c ;; calls rest
  end.

(** The value with bit [i] equal to element [i] of [bits]. *)
Fixpoint lsb_value (bits : list bool) : Z :=
  match bits with
  | [] => 0
  | b :: rest => Z.b2z b + 2 * lsb_value rest
  end.

(** The first [count] bits of [z], bit 0 first: what the data line
    carries when [z] is shifted out. *)
Fixpoint bits_of (count : nat) (z : Z) : list bool :=
  match count with
  | O => []
  | S count' => Z.testbit z 0 :: bits_of count' (Z.shiftr z 1)
  end.

(** The same member called [k] times in a row. *)
Fixpoint times (k : nat) (m : M unit) : M unit :=
  match k with
  | O => ret tt
  | S k' => m ;; times k' m
  end.

(** The value a refresh started in state [s] shifts in: what its call of
    [shiftIn] returns. *)
Definition lastShiftedValue (s : State) : Z :=
  eval (shiftIn LSBFIRST) (exec prepareReading s).

(** How many bits a trace shows clocked in. *)
Fixpoint clocked (t : list activity) : nat :=
  match t with
  | [] => O
  | ShiftedIn _ :: rest => S (clocked rest)
  | ModeSet _ _ :: rest => clocked rest
  | Wrote _ _ :: rest => clocked rest
  end.

End ShiftRegisterIn.

(* ===================================================================== *)
(** * Facts about machine arithmetic *)
(* ===================================================================== *)

Lemma in_long_iff (z : Z) :
  in_long z = true <-> -2147483648 <= z <= 2147483647.
Proof.
  unfold in_long. rewrite andb_true_iff, !Z.leb_le.
  change LONG_MIN with (-2147483648). change LONG_MAX with 2147483647.
  tauto.
Qed.

Lemma long_of_ok (z : Z) : in_long z = true -> long_of z = Ok z.
Proof. unfold long_of. intros ->. reflexivity. Qed.

(** Truncating division never moves away from zero. *)
Lemma quot_mul_between (d k : Z) :
  0 < k ->
  (0 <= Z.quot d k * k <= d) \/ (d <= Z.quot d k * k <= 0).
Proof.
  intros Hk.
  destruct (Z_le_gt_dec 0 d) as [Hd | Hd].
  - left. split.
    + apply Z.mul_nonneg_nonneg; [apply Z.quot_pos; lia | lia].
    + rewrite Z.mul_comm. apply Z.mul_quot_le; lia.
  - right. rewrite Z.mul_comm.
    assert (H := Z.mul_quot_ge d k). lia.
Qed.

Lemma quot_between (d k : Z) :
  0 < k ->
  (0 <= Z.quot d k <= d) \/ (d <= Z.quot d k <= 0).
Proof.
  intros Hk.
  destruct (quot_mul_between d k Hk) as [H | H];
    generalize dependent (Z.quot d k); intros q H; [left | right]; nia.
Qed.

(* ===================================================================== *)
(** * The rotary encoder *)
(* ===================================================================== *)

Section EncoderFacts.

Import MIDIRotaryEncoder.

Local Open Scope result_scope.

(** [update] when the subtraction is representable and the divisor is not
    zero: what remains is the branch on the quotient. *)
Lemma update_unfold (bank : Bank) (p : Z) (e : t) :
  pulsesPerStep e <> 0 ->
  in_long (p - previousPosition e) = true ->
  in_long (delta p e) = true ->
  update bank p e =
  if delta p e =? 0 then Ok (e, [])
  else
    value <- long_mul (delta p e) (speedMultiply e) ;;
    step <- long_mul (delta p e) (pulsesPerStep e) ;;
    next <- long_add (previousPosition e) step ;;
    Ok (set_previousPosition e next,
        [(value, address e + getAddressOffset bank (config e))]).
Proof.
  intros Hk Hsub Hq.
  unfold update, long_sub, long_div.
  rewrite (long_of_ok _ Hsub). cbn [bind].
  destruct (Z.eqb_spec (pulsesPerStep e) 0) as [E | _]; [contradiction |].
  fold (delta p e). rewrite (long_of_ok _ Hq). reflexivity.
Qed.

Lemma delta_in_long (p : Z) (e : t) :
  0 < pulsesPerStep e ->
  in_long (p - previousPosition e) = true ->
  in_long (delta p e) = true.
Proof.
  intros Hk Hsub. apply in_long_iff. apply in_long_iff in Hsub.
  assert (H := quot_between (p - previousPosition e) _ Hk).
  fold (delta p e) in H. generalize dependent (delta p e). intros d H. lia.
Qed.

(** The step taken stays between the previous and the current position. *)
Lemma step_in_long (p : Z) (e : t) :
  0 < pulsesPerStep e ->
  in_long p = true ->
  in_long (previousPosition e) = true ->
  in_long (p - previousPosition e) = true ->
  in_long (delta p e * pulsesPerStep e) = true /\
  in_long (previousPosition e + delta p e * pulsesPerStep e) = true.
Proof.
  intros Hk Hp Hq Hsub.
  rewrite !in_long_iff in *.
  assert (H := quot_mul_between (p - previousPosition e) _ Hk).
  fold (delta p e) in H. generalize dependent (delta p e). intros d H. lia.
Qed.

(** Events of one [update] carry the address computed from the Bank given
    to that call, and [update] leaves the configuration alone. *)
Lemma update_events (bank : Bank) (p : Z) (e e' : t) (evs : list event) :
  update bank p e = Ok (e', evs) ->
  config e' = config e /\ address e' = address e /\
  forall ev, In ev evs ->
    snd ev = address e + index bank * stride (config e).
Proof.
  unfold update.
  destruct (long_sub p (previousPosition e)) as [raw | f]; cbn [bind];
    [| discriminate].
  destruct (long_div raw (pulsesPerStep e)) as [d | f]; cbn [bind];
    [| discriminate].
  destruct (d =? 0).
  - intros H. injection H as <- <-. repeat split. intros ev [].
  - destruct (long_mul d (speedMultiply e)) as [v | f]; cbn [bind];
      [| discriminate].
    destruct (long_mul d (pulsesPerStep e)) as [st | f]; cbn [bind];
      [| discriminate].
    destruct (long_add (previousPosition e) st) as [n | f]; cbn [bind];
      [| discriminate].
    intros H. injection H as <- <-. repeat split.
    intros ev [<- | []]. reflexivity.
Qed.

(** C1.  One poll of the Encoder Output Element at position [p]: when the
    truncating quotient [delta = (p - previousPosition) / pulsesPerStep] is
    zero, nothing is sent and the element is unchanged; otherwise exactly
    one event of value [delta * speedMultiply] is sent and
    [previousPosition] of the element advances by
    [delta * pulsesPerStep], not to [p]: what separates it from [p]
    afterwards is the remainder of the division.
    With [pulsesPerStep = 4] and [speedMultiply = 2], polling position 3
    sends nothing and leaves [previousPosition = 0], and polling position 6
    next sends the value 2 and sets [previousPosition = 4]. *)
Theorem update_keeps_remainder (bank : Bank) (p : Z) (e : t) :
  0 < pulsesPerStep e ->
  in_long p = true ->
  in_long (previousPosition e) = true ->
  in_long (p - previousPosition e) = true ->
  in_long (delta p e * speedMultiply e) = true ->
  (delta p e = 0 -> update bank p e = Ok (e, [])) /\
  (delta p e <> 0 ->
   update bank p e =
   Ok (mk (config e) (address e) (speedMultiply e) (pulsesPerStep e)
         (previousPosition e + delta p e * pulsesPerStep e),
       [(delta p e * speedMultiply e,
         address e + getAddressOffset bank (config e))])) /\
  (forall (e' : t) (evs : list event),
     update bank p e = Ok (e', evs) ->
     previousPosition e' =
       previousPosition e + delta p e * pulsesPerStep e /\
     p - previousPosition e' =
       Z.rem (p - previousPosition e) (pulsesPerStep e)) /\
  (forall (cfg : OutputBankConfig) (a : Z),
     previousPosition (make cfg a 2 4) = 0 /\
     update bank 3 (make cfg a 2 4) = Ok (mk cfg a 2 4 0, []) /\
     update bank 6 (mk cfg a 2 4 0) =
     Ok (mk cfg a 2 4 4, [(2, a + getAddressOffset bank cfg)]) /\
     poll bank [3; 6] (make cfg a 2 4) =
     Ok (mk cfg a 2 4 4, [(2, a + getAddressOffset bank cfg)]) /\
     (forall (e' : t) (evs : list event),
        poll bank [3; 6] (make cfg a 2 4) = Ok (e', evs) ->
        previousPosition e' = 4 /\ evs = [(2, a + getAddressOffset bank cfg)])).
Proof.
  intros Hk Hp Hq Hsub Hmul.
  assert (Hd := delta_in_long p e Hk Hsub).
  destruct (step_in_long p e Hk Hp Hq Hsub) as [Hstep Hnext].
  assert (Hzero : delta p e = 0 -> update bank p e = Ok (e, [])).
  { intros E. rewrite (update_unfold bank p e) by (assumption || lia).
    rewrite E. reflexivity. }
  assert (Hmove : delta p e <> 0 ->
            update bank p e =
            Ok (mk (config e) (address e) (speedMultiply e) (pulsesPerStep e)
                  (previousPosition e + delta p e * pulsesPerStep e),
                [(delta p e * speedMultiply e,
                  address e + getAddressOffset bank (config e))])).
  { intros Hnz. rewrite (update_unfold bank p e) by (assumption || lia).
    destruct (Z.eqb_spec (delta p e) 0) as [E | _]; [contradiction |].
    unfold long_mul, long_add.
    rewrite (long_of_ok _ Hmul). cbn [bind].
    rewrite (long_of_ok _ Hstep). cbn [bind].
    rewrite (long_of_ok _ Hnext). reflexivity. }
  split; [exact Hzero |]. split; [exact Hmove |]. split.
  - intros e' evs Hup.
    assert (Hprev : previousPosition e' =
                    previousPosition e + delta p e * pulsesPerStep e).
    { destruct (Z.eq_dec (delta p e) 0) as [E | Hnz].
      - rewrite (Hzero E) in Hup. injection Hup as <- <-. rewrite E. lia.
      - rewrite (Hmove Hnz) in Hup. injection Hup as <- <-. reflexivity. }
    split; [exact Hprev |].
    rewrite Hprev.
    assert (Hrem := Z.quot_rem' (p - previousPosition e) (pulsesPerStep e)).
    fold (delta p e) in Hrem.
    generalize dependent (Z.rem (p - previousPosition e) (pulsesPerStep e)).
    generalize dependent (delta p e). intros; lia.
  - intros cfg a.
    split; [reflexivity |]. split; [reflexivity |]. split; [reflexivity |].
    split; [reflexivity |].
    intros e' evs Hrun. cbn in Hrun. injection Hrun as <- <-.
    split; reflexivity.
Qed.

(** C5, as amended.  Every event an [update] sends carries the address
    [base + index * stride] for the index the Bank has during that call;
    nothing of an earlier call is reused, so two sending updates between
    which the Bank's index changed use addresses that differ by the change
    of index times the stride, and these are different whenever the stride
    is not zero. *)
Theorem effective_address_fresh
    (b1 b2 : Bank) (p1 p2 : Z) (e e1 e2 : t) (v1 v2 a1 a2 : Z) :
  update b1 p1 e = Ok (e1, [(v1, a1)]) ->
  update b2 p2 e1 = Ok (e2, [(v2, a2)]) ->
  a1 = address e + index b1 * stride (config e) /\
  a2 = address e + index b2 * stride (config e) /\
  a2 - a1 = (index b2 - index b1) * stride (config e) /\
  (index b1 <> index b2 -> stride (config e) <> 0 -> a1 <> a2).
Proof.
  intros H1 H2.
  destruct (update_events _ _ _ _ _ H1) as (Hc & Ha & Hev1).
  destruct (update_events _ _ _ _ _ H2) as (_ & _ & Hev2).
  specialize (Hev1 _ (or_introl eq_refl)).
  specialize (Hev2 _ (or_introl eq_refl)).
  cbn [snd] in Hev1, Hev2. rewrite Hc, Ha in Hev2.
  repeat split; try assumption.
  - lia.
  - intros Hi Hs. nia.
Qed.

(** C10.  With [pulsesPerStep > 0] no [update] divides by zero.  The
    condition cannot be dropped: the constructor takes [pulsesPerStep = 0]
    as it is, and the first [update] of such an element divides by zero. *)
Theorem update_division_defined (bank : Bank) (p : Z) (e : t) :
  0 < pulsesPerStep e ->
  update bank p e <> Fault DivisionByZero /\
  (forall (cfg : OutputBankConfig) (a sm : Z),
     pulsesPerStep (make cfg a sm 0) = 0 /\
     (in_long p = true ->
      update bank p (make cfg a sm 0) = Fault DivisionByZero)).
Proof.
  intros Hk. split.
  - unfold update, long_sub, long_div.
    destruct (long_of (p - previousPosition e)) as [raw | f] eqn:Eraw;
      cbn [bind].
    + destruct (Z.eqb_spec (pulsesPerStep e) 0) as [E | _]; [lia |].
      destruct (long_of (Z.quot raw (pulsesPerStep e))) as [d | f] eqn:Ed;
        cbn [bind].
      * destruct (d =? 0); [discriminate |].
        unfold long_mul, long_add, long_of.
        repeat (match goal with
                | |- context [if in_long ?z then _ else _] =>
                    destruct (in_long z); cbn [bind]
                end); discriminate.
      * unfold long_of in Ed. destruct (in_long _) in Ed; congruence.
    + unfold long_of in Eraw. destruct (in_long _) in Eraw; congruence.
  - intros cfg a sm. split; [reflexivity |].
    intros Hp. unfold update, long_sub. cbn [previousPosition make].
    rewrite Z.sub_0_r, (long_of_ok _ Hp). reflexivity.
Qed.

(** The element of the specification's example, on a Bank of four
    settings with stride five. *)
Lemma update_keeps_remainder_witness :
  update (mkBank 0 4) 6 (make (mkConfig 5) 10 2 4) =
  Ok (mk (mkConfig 5) 10 2 4 4, [(2, 10)]).
Proof.
  refine (proj1 (proj2
    (update_keeps_remainder (mkBank 0 4) 6 (make (mkConfig 5) 10 2 4)
       _ _ _ _ _)) _);
    vm_compute; (reflexivity || discriminate).
Defined.

(** C5 as it is written fails: with stride zero the Bank's index changes
    between two sending updates and both events carry the same address. *)
Lemma bank_change_same_address :
  ~ (forall (b1 b2 : Bank) (p1 p2 : Z) (e e1 e2 : t) (v1 v2 a1 a2 : Z),
       index b1 <> index b2 ->
       update b1 p1 e = Ok (e1, [(v1, a1)]) ->
       update b2 p2 e1 = Ok (e2, [(v2, a2)]) ->
       a1 <> a2).
Proof.
  intros H.
  apply (H (mkBank 0 4) (mkBank 1 4) 1 2
           (make (mkConfig 0) 10 1 1)
           (set_previousPosition (make (mkConfig 0) 10 1 1) 1)
           (set_previousPosition (make (mkConfig 0) 10 1 1) 2)
           1 1 10 10);
    [cbn; discriminate | reflexivity | reflexivity | reflexivity].
Qed.

(** Base 10 and stride 5 on Banks at index 0 and then 1: the two events
    go to 10 and to 15. *)
Lemma effective_address_fresh_witness :
  10 = 10 + 0 * 5 /\ 15 = 10 + 1 * 5 /\ 15 - 10 = (1 - 0) * 5 /\
  (0 <> 1 -> 5 <> 0 -> 10 <> 15).
Proof.
  exact (effective_address_fresh (mkBank 0 4) (mkBank 1 4) 1 2
           (make (mkConfig 5) 10 1 1)
           (set_previousPosition (make (mkConfig 5) 10 1 1) 1)
           (set_previousPosition (make (mkConfig 5) 10 1 1) 2)
           1 1 10 15 eq_refl eq_refl).
Defined.

Lemma update_division_defined_witness :
  update (mkBank 0 4) 6 (make (mkConfig 5) 10 2 4) <> Fault DivisionByZero /\
  update (mkBank 0 4) 6 (make (mkConfig 5) 10 2 0) = Fault DivisionByZero.
Proof.
  assert (Hk : 0 < pulsesPerStep (make (mkConfig 5) 10 2 4))
    by (vm_compute; reflexivity).
  split.
  - exact (proj1 (update_division_defined (mkBank 0 4) 6 _ Hk)).
  - exact (proj2 (proj2 (update_division_defined (mkBank 0 4) 6 _ Hk)
                    (mkConfig 5) 10 2) eq_refl).
Defined.

End EncoderFacts.

(* ===================================================================== *)
(** * The increment selector *)
(* ===================================================================== *)

Section SelectorFacts.

Import IncrementSelector.

(** [setting_t] has [values] values, and [policy] is what [Selector::set]
    does with a request outside the range. *)
Variable values : Z.
Variable policy : Z -> Bank -> result Bank.

Lemma select_index (bank : Bank) : select (index bank) bank = bank.
Proof. destruct bank. reflexivity. Qed.

(** A request inside the range is stored. *)
Lemma set_in_range (v : Z) (bank : Bank) :
  0 <= v < numberOfSettings bank ->
  set policy v bank = Ok (select v bank).
Proof.
  intros [H0 H1]. unfold set.
  apply Z.leb_le in H0. apply Z.ltb_lt in H1. rewrite H0, H1. reflexivity.
Qed.


(** C3.  One increment event on a selector of [n >= 1] settings at index
    [i]: the index becomes [i + 1] when [i + 1 < n]; when [i + 1 = n] it
    becomes 0 with [wrap] and stays [n - 1] without.  With four settings
    and index 3 the result is 0 with [wrap] and 3 without. *)
Theorem increment_wraps_or_clamps (sel : t) (bank : Bank) :
  1 <= numberOfSettings bank < values ->
  0 <= index bank < numberOfSettings bank ->
  (index bank + 1 < numberOfSettings bank ->
   update values policy sel Increment bank = Ok (select (index bank + 1) bank)) /\
  (index bank + 1 = numberOfSettings bank -> wrap sel = true ->
   update values policy sel Increment bank = Ok (select 0 bank)) /\
  (index bank + 1 = numberOfSettings bank -> wrap sel = false ->
   update values policy sel Increment bank =
   Ok (select (numberOfSettings bank - 1) bank)) /\
  (4 < values ->
   update values policy (mk true) Increment (mkBank 3 4) = Ok (mkBank 0 4) /\
   update values policy (mk false) Increment (mkBank 3 4) = Ok (mkBank 3 4)).
Proof.
  intros Hn Hi.
  assert (Hwrap : forall i n, 0 <= i < n -> n < values ->
                   to_setting values (i + 1) = i + 1).
  { intros i n H1 H2. unfold to_setting. apply Z.mod_small. lia. }
  assert (Hback : forall n, 1 <= n < values ->
                   to_setting values (n - 1) = n - 1).
  { intros n H. unfold to_setting. apply Z.mod_small. lia. }
  cbn [update]. unfold increment, get, getNumberOfSettings.
  rewrite (Hwrap _ _ Hi) by lia.
  repeat split.
  - intros Hlt.
    destruct (Z.eqb_spec (index bank + 1) (numberOfSettings bank)); [lia |].
    apply set_in_range. lia.
  - intros Heq Hw. rewrite Heq, Z.eqb_refl, Hw. apply set_in_range. lia.
  - intros Heq Hw. rewrite Heq, Z.eqb_refl, Hw, (Hback _ Hn).
    apply set_in_range. lia.
  - unfold increment, get, getNumberOfSettings. cbn [index numberOfSettings].
    rewrite (Hwrap 3 4) by lia. reflexivity.
  - unfold increment, get, getNumberOfSettings. cbn [index numberOfSettings].
    rewrite (Hwrap 3 4) by lia. change (3 + 1) with 4.
    rewrite (Hback 4) by lia. reflexivity.
Qed.


End SelectorFacts.

(** Eight-bit settings, four settings, from the last one. *)
Lemma increment_wraps_or_clamps_witness :
  IncrementSelector.update 256 (fun _ b => Ok b) (IncrementSelector.mk true)
    IncrementSelector.Increment (mkBank 3 4) = Ok (mkBank 0 4).
Proof.
  refine (proj1 (proj2
    (increment_wraps_or_clamps 256 (fun _ b => Ok b)
       (IncrementSelector.mk true) (mkBank 3 4) _ _)) _ _);
    cbn; (reflexivity || lia).
Defined.


(* ===================================================================== *)
(** * The shift-register input device *)
(* ===================================================================== *)

Section ShiftRegisterFacts.

Import ShiftRegisterIn.

Local Open Scope member_scope.

(** ** Bits and values *)

Lemma b2z_high_bit (b : bool) (m : Z) :
  0 <= m -> Z.testbit (Z.b2z b) (Z.succ m) = false.
Proof.
  intros Hm. replace (Z.b2z b) with (2 * 0 + Z.b2z b) by lia.
  rewrite Z.testbit_succ_r by assumption. apply Z.bits_0.
Qed.

Lemma double_high_bit (b : bool) (r m : Z) :
  0 <= m -> Z.testbit (Z.b2z b + 2 * r) (Z.succ m) = Z.testbit r m.
Proof.
  intros Hm. rewrite Z.add_comm. apply Z.testbit_succ_r. assumption.
Qed.

(** Placing a bit at position [i] and the rest above it. *)
Lemma shiftl_cons (b : bool) (r i : Z) :
  0 <= i ->
  Z.shiftl (Z.b2z b + 2 * r) i =
  Z.lor (Z.shiftl (Z.b2z b) i) (Z.shiftl r (i + 1)).
Proof.
  intros Hi. apply Z.bits_inj'. intros n Hn.
  rewrite Z.lor_spec, !Z.shiftl_spec by assumption.
  destruct (Z.lt_trichotomy n i) as [Hlt | [Heq | Hgt]].
  - rewrite !Z.testbit_neg_r by lia. reflexivity.
  - subst n. rewrite Z.sub_diag, Z.add_b2z_double_bit0, Z.b2z_bit0.
    rewrite Z.testbit_neg_r by lia. apply eq_sym, orb_false_r.
  - replace (n - i) with (Z.succ (n - (i + 1))) by lia.
    rewrite double_high_bit, b2z_high_bit by lia. reflexivity.
Qed.

Lemma lsb_value_testbit (bits : list bool) :
  forall j : nat, Z.testbit (lsb_value bits) (Z.of_nat j) = nth j bits false.
Proof.
  induction bits as [| b rest IH]; intros j; cbn [lsb_value nth].
  - rewrite Z.bits_0. destruct j; reflexivity.
  - destruct j as [| j].
    + apply Z.add_b2z_double_bit0.
    + rewrite Nat2Z.inj_succ, double_high_bit by lia. apply IH.
Qed.

Lemma lsb_value_range (bits : list bool) :
  0 <= lsb_value bits < 2 ^ Z.of_nat (length bits).
Proof.
  induction bits as [| b rest IH]; cbn [lsb_value length].
  - cbn. lia.
  - rewrite Nat2Z.inj_succ, Z.pow_succ_r by lia.
    destruct b; cbn [Z.b2z]; lia.
Qed.

Lemma bits_of_length (count : nat) :
  forall z, length (bits_of count z) = count.
Proof.
  induction count as [| c IH]; intros z; cbn [bits_of length];
    [reflexivity | f_equal; apply IH].
Qed.

Lemma bits_of_nth (count : nat) :
  forall (z : Z) (k : nat), (k < count)%nat ->
    nth k (bits_of count z) false = Z.testbit z (Z.of_nat k).
Proof.
  induction count as [| c IH]; intros z k Hk; [lia |].
  cbn [bits_of nth]. destruct k as [| k]; [reflexivity |].
  rewrite IH by lia. rewrite Z.shiftr_spec by lia.
  f_equal. lia.
Qed.

Lemma land_shiftr_testbit (value : Z) (bit : N) :
  Z.land (Z.shiftr value (Z.of_N bit)) 1 =
  Z.b2z (Z.testbit value (Z.of_N bit)).
Proof.
  assert (Hb : 0 <= Z.of_N bit) by lia.
  rewrite Z.testbit_spec' by assumption.
  change 1 with (Z.ones 1). rewrite Z.land_ones by lia.
  rewrite Z.shiftr_div_pow2 by assumption. reflexivity.
Qed.

(** Below the width of [int], [bitRead] yields the bit at that position. *)
Lemma bitRead_testbit (int_excess : N) (value : Z) (bit : N) :
  Z.of_N bit < INT_BITS int_excess ->
  bitRead int_excess value bit = Ok (Z.b2z (Z.testbit value (Z.of_N bit))).
Proof.
  intros Hbit. unfold bitRead.
  apply Z.ltb_lt in Hbit. rewrite Hbit, land_shiftr_testbit. reflexivity.
Qed.

Lemma bitRead_defined (int_excess : N) (value : Z) (bit : N) :
  Z.of_N bit < INT_BITS int_excess ->
  bitRead int_excess value bit =
  Ok (Z.land (Z.shiftr value (Z.of_N bit)) 1).
Proof.
  intros Hbit. unfold bitRead.
  apply Z.ltb_lt in Hbit. rewrite Hbit. reflexivity.
Qed.

(** A value assembled from at most eight bits fits the buffer. *)
Lemma to_uint8_lsb_value (bits : list bool) :
  (length bits <= 8)%nat -> to_uint8 (lsb_value bits) = lsb_value bits.
Proof.
  intros Hlen. unfold to_uint8. apply Z.mod_small.
  assert (H := lsb_value_range bits).
  assert (2 ^ Z.of_nat (length bits) <= 2 ^ 8)
    by (apply Z.pow_le_mono_r; lia).
  change (2 ^ 8) with 256 in *. lia.
Qed.

Lemma clocked_app (t u : list activity) :
  clocked (t ++ u) = (clocked t + clocked u)%nat.
Proof.
  induction t as [| a t IH]; cbn [app clocked]; [reflexivity |].
  destruct a; rewrite IH; reflexivity.
Qed.

Lemma clocked_shifted (bits : list bool) :
  clocked (map ShiftedIn bits) = length bits.
Proof.
  induction bits as [| b rest IH]; cbn [map clocked length];
    [reflexivity | f_equal; exact IH].
Qed.

(** ** The protocol *)

(** With the clock enabled, [count] periods move the low [count] bits of
    the register's storage into the value, from position [i] upward. *)
Lemma shiftIn_loop_enabled (count : nat) :
  forall (width i value : Z) (h : Hardware),
    0 <= i ->
    clockEnable h = LOW ->
    shiftIn_loop count width LSBFIRST i value h =
    (Z.lor value (Z.shiftl (lsb_value (bits_of count (storage h))) i),
     mkHardware (inputs h) (clock h) LOW (load h)
       (Z.shiftr (storage h) (Z.of_nat count))
       (trace h ++ map ShiftedIn (bits_of count (storage h)))).
Proof.
  induction count as [| c IH]; intros width i value h Hi Hen.
  - cbn [shiftIn_loop bits_of lsb_value map].
    rewrite Z.shiftl_0_l, Z.lor_0_r, app_nil_r.
    destruct h; cbn in *. subst. reflexivity.
  - cbn [shiftIn_loop clock_bit bits_of lsb_value map].
    rewrite Hen. rewrite IH by (cbn; lia || reflexivity).
    cbn [inputs clock load storage trace].
    rewrite shiftl_cons by assumption.
    rewrite Z.lor_assoc, Z.shiftr_shiftr by lia.
    rewrite <- app_assoc. cbn [app].
    repeat f_equal. lia.
Qed.

(** One call of [shiftIn] with the clock enabled. *)
Lemma shiftIn_hw_enabled (h : Hardware) :
  clockEnable h = LOW ->
  shiftIn_hw LSBFIRST h =
  (lsb_value (bits_of 8 (storage h)),
   mkHardware (inputs h) (clock h) LOW (load h) (Z.shiftr (storage h) 8)
     (trace h ++ map ShiftedIn (bits_of 8 (storage h)))).
Proof.
  intros Hen. unfold shiftIn_hw.
  rewrite (shiftIn_loop_enabled 8 8 0 0 h (Z.le_refl 0) Hen).
  rewrite Z.lor_0_l, Z.shiftl_0_r. reflexivity.
Qed.

(** The state in which [prepareReading] leaves the object. *)
Lemma prepareReading_run (s : State) :
  exec prepareReading s =
  mkState (buffer s)
    (mkHardware (inputs (hw s)) (clock (hw s)) LOW HIGH (inputs (hw s))
       (trace (hw s)
        ++ [Wrote loadPin LOW; Wrote loadPin HIGH;
            Wrote clockEnablePin LOW])).
Proof.
  unfold exec, prepareReading, bindM, ExtIO_digitalWrite.
  cbn [snd fst hw buffer ExtIO_digitalWrite_hw load clock clockEnable inputs
       storage trace].
  rewrite <- !app_assoc. reflexivity.
Qed.

(** What a refresh does, from any state: the buffer receives the low
    eight bits of the physical inputs and the lines see the four steps of
    the protocol. *)
Lemma updateBufferedInputs_run (N : nat) (s : State) :
  exec (updateBufferedInputs N) s =
  mkState (to_uint8 (lsb_value (bits_of 8 (inputs (hw s)))))
    (mkHardware (inputs (hw s)) (clock (hw s)) HIGH HIGH
       (Z.shiftr (inputs (hw s)) 8)
       (trace (hw s)
        ++ [Wrote loadPin LOW; Wrote loadPin HIGH; Wrote clockEnablePin LOW]
        ++ map ShiftedIn (bits_of 8 (inputs (hw s)))
        ++ [Wrote clockEnablePin HIGH])).
Proof.
  assert (Hprep := prepareReading_run s).
  unfold exec in *. unfold updateBufferedInputs, bindM.
  destruct (prepareReading s) as [u s1]. cbn [snd] in Hprep. subst s1.
  unfold shiftIn. cbn [hw buffer].
  rewrite shiftIn_hw_enabled by reflexivity.
  unfold set_buffer, afterReading, ExtIO_digitalWrite.
  cbn [snd hw buffer ExtIO_digitalWrite_hw inputs clock clockEnable load
       storage trace].
  rewrite <- !app_assoc. reflexivity.
Qed.

Lemma shiftIn_after_prepare (s : State) :
  eval (shiftIn LSBFIRST) (exec prepareReading s) =
  to_uint8 (lsb_value (bits_of 8 (inputs (hw s)))).
Proof.
  rewrite prepareReading_run. unfold eval, shiftIn. cbn [hw buffer].
  rewrite shiftIn_hw_enabled by reflexivity. reflexivity.
Qed.

(** ** The claims *)

(** C2, as amended.  For a device of at most eight pins and a pin below
    [N]: a refresh clocks one byte, eight bits whatever [N] is, in from
    the data line between enabling and disabling the clock; the value
    shifted in has the bit clocked at period [k] as its bit [k] (least
    significant first); the buffer holds that value; and
    [digitalRead(pin)] is [(lastShiftedValue >> pin) & 1], the bit clocked
    at period [pin]. *)
Theorem refresh_then_digitalRead
    (int_excess : BinNums.N) (N : nat) (pin : BinNums.N) (s : State) :
  (N <= 8)%nat ->
  (N.to_nat pin < N)%nat ->
  clocked (trace (hw (exec (updateBufferedInputs N) s))) =
    (clocked (trace (hw s)) + 8)%nat /\
  trace (hw (exec (updateBufferedInputs N) s)) =
    trace (hw s)
    ++ [Wrote loadPin LOW; Wrote loadPin HIGH; Wrote clockEnablePin LOW]
    ++ map ShiftedIn (bits_of 8 (inputs (hw s)))
    ++ [Wrote clockEnablePin HIGH] /\
  lastShiftedValue s = lsb_value (bits_of 8 (inputs (hw s))) /\
  buffer (exec (updateBufferedInputs N) s) = lastShiftedValue s /\
  eval (digitalRead int_excess pin) (exec (updateBufferedInputs N) s) =
    Ok (Z.land (Z.shiftr (lastShiftedValue s) (Z.of_N pin)) 1) /\
  eval (digitalRead int_excess pin) (exec (updateBufferedInputs N) s) =
    Ok (Z.b2z (nth (N.to_nat pin) (bits_of 8 (inputs (hw s))) false)).
Proof.
  intros HN Hpin.
  assert (Hv : lastShiftedValue s = lsb_value (bits_of 8 (inputs (hw s)))).
  { unfold lastShiftedValue. rewrite shiftIn_after_prepare.
    apply to_uint8_lsb_value. rewrite bits_of_length. lia. }
  assert (Hbuf : buffer (exec (updateBufferedInputs N) s) =
                 lastShiftedValue s).
  { rewrite updateBufferedInputs_run. unfold lastShiftedValue.
    rewrite shiftIn_after_prepare. reflexivity. }
  split; [| split; [| split; [exact Hv | split; [exact Hbuf | split]]]].
  - rewrite updateBufferedInputs_run. cbn [hw trace].
    rewrite !clocked_app, clocked_shifted, bits_of_length.
    cbn [clocked]. lia.
  - rewrite updateBufferedInputs_run. reflexivity.
  - unfold eval, digitalRead. cbn [fst]. rewrite Hbuf.
    apply bitRead_defined. unfold INT_BITS. lia.
  - unfold eval, digitalRead. cbn [fst].
    rewrite Hbuf, Hv, bitRead_testbit by (unfold INT_BITS; lia).
    rewrite <- N_nat_Z, lsb_value_testbit. reflexivity.
Qed.

(** C2 as it is written fails: a refresh of [ShiftRegisterIn<4>] clocks
    eight bits in, not four. *)
Lemma refresh_clocks_a_byte :
  ~ (forall (N : nat) (s : State),
       (1 <= N <= 8)%nat ->
       clocked (trace (hw (exec (updateBufferedInputs N) s))) =
       (clocked (trace (hw s)) + N)%nat).
Proof.
  intros H.
  specialize (H 4%nat (mkState 0 (mkHardware 13 LOW HIGH HIGH 0 []))).
  vm_compute in H. specialize (H (conj (le_S _ _ (le_S _ _ (le_S _ _ (le_n 1))))
                                       (le_S _ _ (le_S _ _ (le_S _ _
                                          (le_S _ _ (le_n 4))))))).
  discriminate H.
Qed.

(** C6.  Any number of calls of the write family, with any arguments,
    leaves the buffer and the lines as they were, so every later
    [digitalRead] returns what it would have returned without them. *)
Theorem write_family_inert (cs : list write_call) (s : State) :
  exec (calls cs) s = s /\
  buffer (exec (calls cs) s) = buffer s /\
  hw (exec (calls cs) s) = hw s /\
  (forall int_excess pin : N,
     digitalRead int_excess pin (exec (calls cs) s) =
     digitalRead int_excess pin s) /\
  (forall (N : nat) (int_excess pin : BinNums.N),
     digitalRead int_excess pin
       (exec (updateBufferedInputs N) (exec (calls cs) s)) =
     digitalRead int_excess pin (exec (updateBufferedInputs N) s)).
Proof.
  assert (H : exec (calls cs) s = s).
  { revert s. induction cs as [| c rest IH]; intros s; [reflexivity |].
    cbn [calls]. unfold exec, bindM in *.
    destruct c; cbn; apply IH. }
  rewrite H. repeat split.
Qed.

(** C7, as amended.  For every pin [digitalRead] and
    [digitalReadBuffered] do the same thing and leave the object and the
    lines exactly as they were: no activity is added to the trace and the
    buffer is not written.  For a pin below the width of [int] both return
    bit [pin] of the buffer; at or beyond it the shift in [bitRead] is
    undefined.  Of the members, only [updateBufferedInputs] assigns the
    buffer: the analog reads, [begin], [updateBufferedOutputs], the pin
    modes and the write family keep it. *)
Theorem digitalRead_is_buffered (int_excess pin : N) (s : State) :
  digitalReadBuffered int_excess pin s = digitalRead int_excess pin s /\
  exec (digitalRead int_excess pin) s = s /\
  exec (digitalReadBuffered int_excess pin) s = s /\
  (Z.of_N pin < INT_BITS int_excess ->
   eval (digitalRead int_excess pin) s =
     Ok (Z.b2z (Z.testbit (buffer s) (Z.of_N pin))) /\
   eval (digitalReadBuffered int_excess pin) s =
     Ok (Z.b2z (Z.testbit (buffer s) (Z.of_N pin)))) /\
  (INT_BITS int_excess <= Z.of_N pin ->
   eval (digitalRead int_excess pin) s = Fault UndefinedShift /\
   eval (digitalReadBuffered int_excess pin) s = Fault UndefinedShift) /\
  buffer (exec (analogRead pin) s) = buffer s /\
  buffer (exec (analogReadBuffered pin) s) = buffer s /\
  buffer (exec begin s) = buffer s /\
  buffer (exec updateBufferedOutputs s) = buffer s /\
  (forall mode : PinMode_t, buffer (exec (pinMode mode) s) = buffer s) /\
  (forall mode : PinMode_t,
     buffer (exec (pinModeBuffered mode) s) = buffer s) /\
  (forall c : write_call, buffer (exec (call c) s) = buffer s).
Proof.
  split; [reflexivity |]. split; [reflexivity |]. split; [reflexivity |].
  split.
  { intros Hpin. unfold eval, digitalRead, digitalReadBuffered. cbn [fst].
    rewrite bitRead_testbit by assumption. split; reflexivity. }
  split.
  { intros Hpin. unfold eval, digitalRead, digitalReadBuffered, bitRead.
    cbn [fst]. apply Z.ltb_ge in Hpin. rewrite Hpin. split; reflexivity. }
  repeat split. intros c. destruct c; reflexivity.
Qed.

(** C7 as it is written fails: on a board whose [int] has thirty-two
    bits, [digitalRead(32)] is not bit 32 of the buffer, it is an
    undefined shift. *)
Lemma digitalRead_pin_beyond_int :
  ~ (forall (int_excess pin : N) (s : State),
       eval (digitalRead int_excess pin) s =
       Ok (Z.b2z (Z.testbit (buffer s) (Z.of_N pin)))).
Proof.
  intros H.
  specialize (H 16%N 32%N (mkState 255 (mkHardware 0 LOW HIGH HIGH 0 []))).
  vm_compute in H. discriminate H.
Qed.

(** C8.  [analogRead] and [analogReadBuffered] return 0 for every pin, as
    an ordinary result, and change nothing. *)
Theorem analogRead_zero (pin : N) (s : State) :
  analogRead pin s = (0, s) /\ analogReadBuffered pin s = (0, s).
Proof. split; reflexivity. Qed.

(** C9.  A refresh does not touch the physical inputs, and a second
    refresh from any state with the same physical inputs as the first one
    saw (in particular the state the first one left) fills the buffer with
    the same contents. *)
Theorem refresh_idempotent (N : nat) (s s' : State) :
  inputs (hw s') = inputs (hw (exec (updateBufferedInputs N) s)) ->
  inputs (hw (exec (updateBufferedInputs N) s)) = inputs (hw s) /\
  buffer (exec (updateBufferedInputs N) s') =
  buffer (exec (updateBufferedInputs N) s).
Proof.
  rewrite !updateBufferedInputs_run. cbn [hw inputs buffer].
  intros ->. split; reflexivity.
Qed.

End ShiftRegisterFacts.

(** Sixteen-bit [int], pin 3 of a buffer holding 8. *)
Lemma digitalRead_is_buffered_witness :
  ShiftRegisterIn.eval (ShiftRegisterIn.digitalRead 0 3)
    (ShiftRegisterIn.mkState 8
       (ShiftRegisterIn.mkHardware 0 ShiftRegisterIn.LOW
          ShiftRegisterIn.HIGH ShiftRegisterIn.HIGH 0 [])) = Ok 1 /\
  ShiftRegisterIn.eval (ShiftRegisterIn.digitalRead 0 20)
    (ShiftRegisterIn.mkState 8
       (ShiftRegisterIn.mkHardware 0 ShiftRegisterIn.LOW
          ShiftRegisterIn.HIGH ShiftRegisterIn.HIGH 0 [])) =
    Fault UndefinedShift.
Proof.
  split.
  - refine (proj1 (proj1 (proj2 (proj2 (proj2
      (digitalRead_is_buffered 0 3
         (ShiftRegisterIn.mkState 8
            (ShiftRegisterIn.mkHardware 0 ShiftRegisterIn.LOW
               ShiftRegisterIn.HIGH ShiftRegisterIn.HIGH 0 [])))))) _));
      cbn; lia.
  - refine (proj1 (proj1 (proj2 (proj2 (proj2 (proj2
      (digitalRead_is_buffered 0 20
         (ShiftRegisterIn.mkState 8
            (ShiftRegisterIn.mkHardware 0 ShiftRegisterIn.LOW
               ShiftRegisterIn.HIGH ShiftRegisterIn.HIGH 0 []))))))) _));
      cbn; lia.
Defined.

(** A CD74HC165 whose inputs 0, 2 and 3 are high: pin 2 reads 1. *)
Lemma refresh_then_digitalRead_witness :
  ShiftRegisterIn.eval (ShiftRegisterIn.digitalRead 0 2)
    (ShiftRegisterIn.exec (ShiftRegisterIn.updateBufferedInputs 8)
       (ShiftRegisterIn.mkState 0
          (ShiftRegisterIn.mkHardware 13 ShiftRegisterIn.LOW
             ShiftRegisterIn.HIGH ShiftRegisterIn.HIGH 0 []))) = Ok 1.
Proof.
  refine (proj2 (proj2 (proj2 (proj2 (proj2
    (refresh_then_digitalRead 0 8 2
       (ShiftRegisterIn.mkState 0
          (ShiftRegisterIn.mkHardware 13 ShiftRegisterIn.LOW
             ShiftRegisterIn.HIGH ShiftRegisterIn.HIGH 0 []))
       _ _)))))); cbn; lia.
Defined.

(** Two refreshes in a row on the same inputs. *)
Lemma refresh_idempotent_witness :
  ShiftRegisterIn.buffer
    (ShiftRegisterIn.exec (ShiftRegisterIn.updateBufferedInputs 8)
       (ShiftRegisterIn.exec (ShiftRegisterIn.updateBufferedInputs 8)
          (ShiftRegisterIn.mkState 0
             (ShiftRegisterIn.mkHardware 13 ShiftRegisterIn.LOW
                ShiftRegisterIn.HIGH ShiftRegisterIn.HIGH 0 [])))) =
  ShiftRegisterIn.buffer
    (ShiftRegisterIn.exec (ShiftRegisterIn.updateBufferedInputs 8)
       (ShiftRegisterIn.mkState 0
          (ShiftRegisterIn.mkHardware 13 ShiftRegisterIn.LOW
             ShiftRegisterIn.HIGH ShiftRegisterIn.HIGH 0 []))).
Proof.
  exact (proj2 (refresh_idempotent 8
    (ShiftRegisterIn.mkState 0
       (ShiftRegisterIn.mkHardware 13 ShiftRegisterIn.LOW
          ShiftRegisterIn.HIGH ShiftRegisterIn.HIGH 0 []))
    (ShiftRegisterIn.exec (ShiftRegisterIn.updateBufferedInputs 8)
       (ShiftRegisterIn.mkState 0
          (ShiftRegisterIn.mkHardware 13 ShiftRegisterIn.LOW
             ShiftRegisterIn.HIGH ShiftRegisterIn.HIGH 0 [])))
    eq_refl)).
Defined.

(* ===================================================================== *)
(** * Further properties of the rotary encoder *)
(* ===================================================================== *)

Section EncoderSteps.

Import MIDIRotaryEncoder.

Local Open Scope result_scope.

(** Every way [update] can return. *)
Lemma update_inv (bank : Bank) (p : Z) (e e' : t) (evs : list event) :
  update bank p e = Ok (e', evs) ->
  pulsesPerStep e <> 0 /\
  in_long (p - previousPosition e) = true /\
  ((delta p e = 0 /\ e' = e /\ evs = []) \/
   (delta p e <> 0 /\
    in_long (delta p e * speedMultiply e) = true /\
    e' = set_previousPosition e
           (previousPosition e + delta p e * pulsesPerStep e) /\
    evs = [(delta p e * speedMultiply e,
            address e + getAddressOffset bank (config e))])).
Proof.
  unfold update, long_sub, long_div, long_mul, long_add, long_of.
  destruct (in_long (p - previousPosition e)) eqn:Hsub; cbn [bind];
    [| discriminate].
  destruct (Z.eqb_spec (pulsesPerStep e) 0) as [E | Hk]; cbn [bind];
    [discriminate |].
  fold (delta p e).
  destruct (in_long (delta p e)); cbn [bind]; [| discriminate].
  destruct (Z.eqb_spec (delta p e) 0) as [Hd | Hd].
  - intros H. injection H as <- <-.
    split; [assumption | split; [reflexivity | left; auto]].
  - destruct (in_long (delta p e * speedMultiply e)) eqn:Hmul; cbn [bind];
      [| discriminate].
    destruct (in_long (delta p e * pulsesPerStep e)); cbn [bind];
      [| discriminate].
    destruct (in_long (previousPosition e + delta p e * pulsesPerStep e));
      cbn [bind]; [| discriminate].
    intros H. injection H as <- <-.
    split; [assumption | split; [reflexivity | right; auto]].
Qed.

(** What is left between the new [previousPosition] and the position is
    the remainder of the truncating division. *)
Lemma remainder_after_step (p : Z) (e : t) :
  p - (previousPosition e + delta p e * pulsesPerStep e) =
  Z.rem (p - previousPosition e) (pulsesPerStep e).
Proof.
  assert (H := Z.quot_rem' (p - previousPosition e) (pulsesPerStep e)).
  fold (delta p e) in H.
  generalize dependent (Z.rem (p - previousPosition e) (pulsesPerStep e)).
  generalize dependent (delta p e). intros d r H. lia.
Qed.

Lemma rem_between (d k : Z) :
  0 < k -> (0 <= Z.rem d k <= d) \/ (d <= Z.rem d k <= 0).
Proof.
  intros Hk.
  assert (H := Z.quot_rem' d k).
  destruct (quot_mul_between d k Hk) as [Hq | Hq];
    generalize dependent (Z.rem d k); generalize dependent (Z.quot d k);
    intros q Hq r H.
  - left. assert (0 <= d) by lia.
    assert (Hr := Z.rem_bound_pos d k). lia.
  - right. assert (d <= 0) by lia.
    assert (Hr := Z.rem_bound_pos_neg d k). lia.
Qed.

Lemma update_leaves_less_than_a_step_aux
    (bank : Bank) (p : Z) (e e' : t) (evs : list event) :
  0 < pulsesPerStep e ->
  update bank p e = Ok (e', evs) ->
  Z.abs (p - previousPosition e') < pulsesPerStep e.
Proof.
  intros Hk Hup.
  destruct (update_inv _ _ _ _ _ Hup) as (_ & _ & Hcase).
  assert (Hrem := remainder_after_step p e).
  assert (Habs := Z.rem_bound_abs (p - previousPosition e)
                    (pulsesPerStep e) ltac:(lia)).
  assert (Hsmall := Z.quot_small_iff (p - previousPosition e)
                      (pulsesPerStep e) ltac:(lia)).
  fold (delta p e) in Hsmall.
  destruct Hcase as [(Hd & -> & _) | (_ & _ & -> & _)].
  - apply Hsmall in Hd. lia.
  - cbn [previousPosition set_previousPosition].
    generalize dependent (Z.rem (p - previousPosition e) (pulsesPerStep e)).
    intros r Hrem Habs. lia.
Qed.

(** X1.  After an [update] that returns, less than one step separates
    [previousPosition] from the position read, and [previousPosition] has
    moved toward that position without passing it. *)
Theorem update_leaves_less_than_a_step
    (bank : Bank) (p : Z) (e e' : t) (evs : list event) :
  0 < pulsesPerStep e ->
  update bank p e = Ok (e', evs) ->
  Z.abs (p - previousPosition e') < pulsesPerStep e /\
  ((previousPosition e <= previousPosition e' <= p) \/
   (p <= previousPosition e' <= previousPosition e)).
Proof.
  intros Hk Hup.
  destruct (update_inv _ _ _ _ _ Hup) as (_ & _ & Hcase).
  assert (Hrem := remainder_after_step p e).
  assert (Habs := Z.rem_bound_abs (p - previousPosition e)
                    (pulsesPerStep e) ltac:(lia)).
  assert (Hbet := rem_between (p - previousPosition e) _ Hk).
  assert (Hsmall := Z.quot_small_iff (p - previousPosition e)
                      (pulsesPerStep e) ltac:(lia)).
  fold (delta p e) in Hsmall.
  destruct Hcase as [(Hd & -> & _) | (_ & _ & -> & _)].
  - apply Hsmall in Hd. split; lia.
  - cbn [previousPosition set_previousPosition].
    generalize dependent (Z.rem (p - previousPosition e) (pulsesPerStep e)).
    intros r Hrem Habs Hbet. split; lia.
Qed.

(** X2.  An [update] sends at most one event, and sends one exactly when
    the position is a whole step or more away from [previousPosition];
    this does not depend on [speedMultiply], so with [speedMultiply = 0]
    events of value 0 are sent. *)
Theorem update_sends_iff_full_step
    (bank : Bank) (p : Z) (e e' : t) (evs : list event) :
  0 < pulsesPerStep e ->
  update bank p e = Ok (e', evs) ->
  (length evs <= 1)%nat /\
  (evs = [] <-> Z.abs (p - previousPosition e) < pulsesPerStep e) /\
  (evs <> [] ->
   evs = [(delta p e * speedMultiply e,
           address e + getAddressOffset bank (config e))] /\
   (speedMultiply e = 0 -> total evs = 0)).
Proof.
  intros Hk Hup.
  destruct (update_inv _ _ _ _ _ Hup) as (_ & _ & Hcase).
  assert (Hsmall := Z.quot_small_iff (p - previousPosition e)
                      (pulsesPerStep e) ltac:(lia)).
  fold (delta p e) in Hsmall.
  destruct Hcase as [(Hd & _ & ->) | (Hd & _ & _ & ->)].
  - split; [cbn; lia |]. split.
    + split; [intros _; apply Hsmall in Hd; lia | reflexivity].
    + intros H. contradiction.
  - split; [cbn; lia |]. split.
    + split; [discriminate |].
      intros H. exfalso. apply Hd, Hsmall. lia.
    + intros _. split; [reflexivity |].
      intros ->. cbn [total fst]. lia.
Qed.

(** X3.  Polling the same position again, whatever the Bank is by then,
    sends nothing and changes nothing: an encoder at rest is silent. *)
Theorem update_again_is_silent
    (bank bank' : Bank) (p : Z) (e e' : t) (evs : list event) :
  0 < pulsesPerStep e ->
  update bank p e = Ok (e', evs) ->
  update bank' p e' = Ok (e', []).
Proof.
  intros Hk Hup.
  destruct (update_inv _ _ _ _ _ Hup) as (_ & Hsub & Hcase).
  assert (Hrem := remainder_after_step p e).
  assert (Habs := Z.rem_bound_abs (p - previousPosition e)
                    (pulsesPerStep e) ltac:(lia)).
  assert (Hbet := rem_between (p - previousPosition e) _ Hk).
  assert (Hsmall := Z.quot_small_iff (p - previousPosition e)
                      (pulsesPerStep e) ltac:(lia)).
  fold (delta p e) in Hsmall.
  assert (Hgoal : pulsesPerStep e' = pulsesPerStep e /\
                  in_long (p - previousPosition e') = true /\
                  delta p e' = 0).
  { destruct Hcase as [(Hd & -> & _) | (_ & _ & -> & _)].
    - auto.
    - cbn [previousPosition pulsesPerStep set_previousPosition].
      split; [reflexivity |].
      change (delta p (set_previousPosition e
                (previousPosition e + delta p e * pulsesPerStep e)))
        with (Z.quot
                (p - (previousPosition e + delta p e * pulsesPerStep e))
                (pulsesPerStep e)).
      rewrite Hrem. apply in_long_iff in Hsub.
      split.
      + apply in_long_iff.
        generalize dependent
          (Z.rem (p - previousPosition e) (pulsesPerStep e)).
        intros; lia.
      + apply Z.quot_small_iff; lia. }
  destruct Hgoal as (Hpps & Hsub' & Hd').
  rewrite (update_unfold bank' p e'); try assumption.
  - rewrite Hd'. reflexivity.
  - lia.
  - rewrite Hd'. reflexivity.
Qed.

(** What one returning [update] keeps and how far it moves. *)
Lemma update_step_facts (bank : Bank) (p : Z) (e e' : t) (evs : list event) :
  update bank p e = Ok (e', evs) ->
  pulsesPerStep e' = pulsesPerStep e /\
  speedMultiply e' = speedMultiply e /\
  total evs * pulsesPerStep e =
    speedMultiply e * (previousPosition e' - previousPosition e) /\
  (pulsesPerStep e | previousPosition e' - previousPosition e).
Proof.
  intros Hup.
  destruct (update_inv _ _ _ _ _ Hup) as (_ & _ & Hcase).
  destruct Hcase as [(_ & -> & ->) | (_ & _ & -> & ->)].
  - repeat split; cbn [total]; try lia.
    exists 0. lia.
  - cbn [previousPosition pulsesPerStep speedMultiply set_previousPosition
         total fst].
    repeat split; try lia.
    exists (delta p e). lia.
Qed.

(** X4.  Over any series of polls that return, no step is lost or
    invented: the values sent add up to [speedMultiply] times the number
    of steps [previousPosition] has moved, [previousPosition] has moved by
    a whole number of steps, and less than one step separates it from the
    last position polled. *)
Theorem poll_conserves_steps
    (bank : Bank) (positions : list Z) (e e' : t) (evs : list event) :
  0 < pulsesPerStep e ->
  poll bank positions e = Ok (e', evs) ->
  pulsesPerStep e' = pulsesPerStep e /\
  speedMultiply e' = speedMultiply e /\
  total evs * pulsesPerStep e =
    speedMultiply e * (previousPosition e' - previousPosition e) /\
  (pulsesPerStep e | previousPosition e' - previousPosition e) /\
  (positions <> [] ->
   Z.abs (last positions 0 - previousPosition e') < pulsesPerStep e).
Proof.
  revert e e' evs.
  induction positions as [| p rest IH]; intros e e' evs Hk Hrun.
  - cbn [poll] in Hrun. injection Hrun as <- <-.
    cbn [total]. repeat split; try lia.
    + exists 0. lia.
    + intros H. contradiction.
  - cbn [poll] in Hrun.
    destruct (update bank p e) as [[e1 evs1] | f] eqn:Hup; cbn [bind] in Hrun;
      [| discriminate].
    cbn [fst snd] in Hrun.
    destruct (poll bank rest e1) as [[e2 evs2] | f] eqn:Hrest;
      cbn [bind] in Hrun; [| discriminate].
    cbn [fst snd] in Hrun. injection Hrun as <- <-.
    destruct (update_step_facts _ _ _ _ _ Hup) as (Hk1 & Hs1 & Ht1 & Hd1).
    assert (Hk' : 0 < pulsesPerStep e1) by lia.
    destruct (IH _ _ _ Hk' Hrest) as (Hk2 & Hs2 & Ht2 & Hd2 & Hlast).
    rewrite Hk1 in *. rewrite Hs1 in *.
    assert (Htot : total (evs1 ++ evs2) = total evs1 + total evs2).
    { clear. induction evs1 as [| a l IHl]; cbn [app total]; lia. }
    split; [assumption |]. split; [assumption |]. split; [| split].
    + rewrite Htot. lia.
    + replace (previousPosition e2 - previousPosition e)
        with ((previousPosition e1 - previousPosition e)
              + (previousPosition e2 - previousPosition e1)) by lia.
      apply Z.divide_add_r; assumption.
    + intros _. destruct rest as [| p' rest'].
      * cbn [poll] in Hrest. injection Hrest as <- <-. cbn [last].
        apply (update_leaves_less_than_a_step_aux bank p e e1 evs1 Hk Hup).
      * apply Hlast. discriminate.
Qed.

(** X5.  With [pulsesPerStep > 0] and positions that are [long] values,
    [update] returns exactly when the difference of the positions and the
    scaled step are representable, and otherwise stops on signed
    overflow. *)
Theorem update_faults_only_on_overflow (bank : Bank) (p : Z) (e : t) :
  0 < pulsesPerStep e ->
  in_long p = true ->
  in_long (previousPosition e) = true ->
  (in_long (p - previousPosition e) = true ->
   in_long (delta p e * speedMultiply e) = true ->
   exists r, update bank p e = Ok r) /\
  (in_long (p - previousPosition e) = false \/
   in_long (delta p e * speedMultiply e) = false ->
   update bank p e = Fault SignedOverflow).
Proof.
  intros Hk Hp Hq. split.
  - intros Hsub Hmul.
    assert (Hd := delta_in_long p e Hk Hsub).
    destruct (step_in_long p e Hk Hp Hq Hsub) as [Hstep Hnext].
    rewrite (update_unfold bank p e) by (assumption || lia).
    destruct (delta p e =? 0); [eexists; reflexivity |].
    unfold long_mul, long_add.
    rewrite (long_of_ok _ Hmul). cbn [bind].
    rewrite (long_of_ok _ Hstep). cbn [bind].
    rewrite (long_of_ok _ Hnext). cbn [bind]. eexists; reflexivity.
  - intros H.
    destruct (in_long (p - previousPosition e)) eqn:Hsub.
    + destruct H as [H | Hmul]; [discriminate |].
      assert (Hd := delta_in_long p e Hk Hsub).
      rewrite (update_unfold bank p e) by (assumption || lia).
      destruct (Z.eqb_spec (delta p e) 0) as [E | _].
      * rewrite E in Hmul. cbn in Hmul. discriminate.
      * unfold long_mul, long_of. rewrite Hmul. reflexivity.
    + unfold update, long_sub, long_of. rewrite Hsub. reflexivity.
Qed.

End EncoderSteps.

(** One step from 0 to 6 with four pulses per step: two pulses remain. *)
Lemma update_leaves_less_than_a_step_witness :
  Z.abs (6 - 4) < 4 /\ ((0 <= 4 <= 6) \/ (6 <= 4 <= 0)).
Proof.
  exact (update_leaves_less_than_a_step (mkBank 0 4) 6
           (MIDIRotaryEncoder.make (mkConfig 5) 10 2 4)
           (MIDIRotaryEncoder.set_previousPosition
              (MIDIRotaryEncoder.make (mkConfig 5) 10 2 4) 4)
           [(2, 10)] eq_refl eq_refl).
Defined.

(** Speed multiplier zero: the step from 0 to 6 is sent with value 0. *)
Lemma update_sends_iff_full_step_witness :
  (1 <= 1)%nat /\
  ([(0, 10)] = [] <-> Z.abs (6 - 0) < 4) /\
  ([(0, 10)] <> [] ->
   [(0, 10)] = [(1 * 0, 10 + 0 * 5)] /\
   (0 = 0 -> MIDIRotaryEncoder.total [(0, 10)] = 0)).
Proof.
  exact (update_sends_iff_full_step (mkBank 0 4) 6
           (MIDIRotaryEncoder.make (mkConfig 5) 10 0 4)
           (MIDIRotaryEncoder.set_previousPosition
              (MIDIRotaryEncoder.make (mkConfig 5) 10 0 4) 4)
           [(0, 10)] eq_refl eq_refl).
Defined.

(** Position 6 polled twice, the Bank moving on in between. *)
Lemma update_again_is_silent_witness :
  MIDIRotaryEncoder.update (mkBank 1 4) 6
    (MIDIRotaryEncoder.set_previousPosition
       (MIDIRotaryEncoder.make (mkConfig 5) 10 2 4) 4) =
  Ok (MIDIRotaryEncoder.set_previousPosition
        (MIDIRotaryEncoder.make (mkConfig 5) 10 2 4) 4, []).
Proof.
  exact (update_again_is_silent (mkBank 0 4) (mkBank 1 4) 6
           (MIDIRotaryEncoder.make (mkConfig 5) 10 2 4)
           (MIDIRotaryEncoder.set_previousPosition
              (MIDIRotaryEncoder.make (mkConfig 5) 10 2 4) 4)
           [(2, 10)] eq_refl eq_refl).
Defined.

(** Forward to 9, back to 3, forward to 14: three steps net, value 6. *)
Lemma poll_conserves_steps_witness :
  4 = 4 /\ 2 = 2 /\
  MIDIRotaryEncoder.total [(4, 10); (-2, 10); (4, 10)] * 4 = 2 * (12 - 0) /\
  (4 | 12 - 0) /\
  ([9; 3; 14] <> [] -> Z.abs (14 - 12) < 4).
Proof.
  exact (poll_conserves_steps (mkBank 0 4) [9; 3; 14]
           (MIDIRotaryEncoder.make (mkConfig 5) 10 2 4)
           (MIDIRotaryEncoder.set_previousPosition
              (MIDIRotaryEncoder.make (mkConfig 5) 10 2 4) 12)
           [(4, 10); (-2, 10); (4, 10)] eq_refl eq_refl).
Defined.

(** From one end of the range of [long] to the other: the difference
    overflows. *)
Lemma update_faults_only_on_overflow_witness :
  MIDIRotaryEncoder.update (mkBank 0 4) 2147483647
    (MIDIRotaryEncoder.set_previousPosition
       (MIDIRotaryEncoder.make (mkConfig 5) 10 2 4) (-2147483648)) =
  Fault SignedOverflow.
Proof.
  exact (proj2 (update_faults_only_on_overflow (mkBank 0 4) 2147483647
                  (MIDIRotaryEncoder.set_previousPosition
                     (MIDIRotaryEncoder.make (mkConfig 5) 10 2 4)
                     (-2147483648))
                  eq_refl eq_refl eq_refl)
           (or_introl eq_refl)).
Defined.

(* ===================================================================== *)
(** * Further properties of the increment selector *)
(* ===================================================================== *)

Section SelectorRuns.

Import IncrementSelector.

Local Open Scope result_scope.

Variable values : Z.
Variable policy : Z -> Bank -> result Bank.

Lemma select_select (i j : Z) (bank : Bank) :
  select j (select i bank) = select j bank.
Proof. reflexivity. Qed.

Lemma presses_nonneg (buttons : list ButtonState) : 0 <= presses buttons.
Proof.
  induction buttons as [| b rest IH]; cbn [presses]; [lia |].
  destruct b; lia.
Qed.

(** One increment on a valid index, in one formula. *)
Lemma increment_step (sel : t) (bank : Bank) :
  1 <= numberOfSettings bank < values ->
  0 <= index bank < numberOfSettings bank ->
  increment values policy sel bank =
  Ok (select
        (if index bank + 1 <? numberOfSettings bank then index bank + 1
         else if wrap sel then 0 else numberOfSettings bank - 1)
        bank).
Proof.
  intros Hn Hi. unfold increment, get, getNumberOfSettings, to_setting.
  rewrite (Z.mod_small (index bank + 1)) by lia.
  destruct (Z.ltb_spec (index bank + 1) (numberOfSettings bank)) as [Hlt | Hge].
  - destruct (Z.eqb_spec (index bank + 1) (numberOfSettings bank)); [lia |].
    apply set_in_range. lia.
  - assert (Heq : index bank + 1 = numberOfSettings bank) by lia.
    rewrite Heq, Z.eqb_refl.
    destruct (wrap sel).
    + apply set_in_range. lia.
    + rewrite Z.mod_small by lia. apply set_in_range. lia.
Qed.

(** X6.  With [wrap], a series of polls moves a valid index forward by the
    number of increment events modulo the number of settings; polls
    without an event do not count. *)
Theorem run_wraps_modulo
    (sel : t) (buttons : list ButtonState) (bank : Bank) :
  1 <= numberOfSettings bank < values ->
  0 <= index bank < numberOfSettings bank ->
  wrap sel = true ->
  run values policy sel buttons bank =
  Ok (select ((index bank + presses buttons) mod numberOfSettings bank) bank).
Proof.
  intros Hn Hi Hw. revert bank Hn Hi.
  induction buttons as [| b rest IH]; intros bank Hn Hi.
  - cbn [run presses]. rewrite Z.add_0_r, Z.mod_small by lia.
    rewrite select_index. reflexivity.
  - destruct b; cbn [run update presses bind].
    + apply IH; assumption.
    + rewrite (increment_step sel bank Hn Hi), Hw. cbn [bind].
      destruct (Z.ltb_spec (index bank + 1) (numberOfSettings bank))
        as [Hlt | Hge].
      * rewrite IH by (cbn [select index numberOfSettings]; lia).
        cbn [select index numberOfSettings]. rewrite select_select.
        rewrite Z.add_assoc. reflexivity.
      * rewrite IH by (cbn [select index numberOfSettings]; lia).
        cbn [select index numberOfSettings]. rewrite select_select.
        replace (index bank + (1 + presses rest))
          with (0 + presses rest + 1 * numberOfSettings bank) by lia.
        rewrite Z.mod_add by lia. reflexivity.
Qed.

(** X7.  Without [wrap], a series of polls moves a valid index forward by
    the number of increment events and stops at the last setting. *)
Theorem run_saturates
    (sel : t) (buttons : list ButtonState) (bank : Bank) :
  1 <= numberOfSettings bank < values ->
  0 <= index bank < numberOfSettings bank ->
  wrap sel = false ->
  run values policy sel buttons bank =
  Ok (select (Z.min (index bank + presses buttons)
                (numberOfSettings bank - 1)) bank).
Proof.
  intros Hn Hi Hw. revert bank Hn Hi.
  induction buttons as [| b rest IH]; intros bank Hn Hi.
  - cbn [run presses]. rewrite Z.add_0_r, Z.min_l by lia.
    rewrite select_index. reflexivity.
  - assert (Hp := presses_nonneg rest).
    destruct b; cbn [run update presses bind].
    + apply IH; assumption.
    + rewrite (increment_step sel bank Hn Hi), Hw. cbn [bind].
      destruct (Z.ltb_spec (index bank + 1) (numberOfSettings bank))
        as [Hlt | Hge];
        rewrite IH by (cbn [select index numberOfSettings]; lia);
        cbn [select index numberOfSettings]; rewrite select_select;
        do 2 f_equal; lia.
Qed.

End SelectorRuns.

(** Four settings, from index 3, three events among five polls: index 2. *)
Lemma run_wraps_modulo_witness :
  IncrementSelector.run 256 (fun _ b => Ok b) (IncrementSelector.mk true)
    [IncrementSelector.Increment; IncrementSelector.Nothing;
     IncrementSelector.Increment; IncrementSelector.Increment;
     IncrementSelector.Nothing] (mkBank 3 4) =
  Ok (mkBank 2 4).
Proof.
  refine (run_wraps_modulo 256 (fun _ b => Ok b)
           (IncrementSelector.mk true)
           [IncrementSelector.Increment; IncrementSelector.Nothing;
            IncrementSelector.Increment; IncrementSelector.Increment;
            IncrementSelector.Nothing] (mkBank 3 4) _ _ _);
    cbn; (reflexivity || lia).
Defined.

(** Four settings, from index 1, three events: index 3, the last one. *)
Lemma run_saturates_witness :
  IncrementSelector.run 256 (fun _ b => Ok b) (IncrementSelector.mk false)
    [IncrementSelector.Increment; IncrementSelector.Increment;
     IncrementSelector.Increment] (mkBank 1 4) =
  Ok (mkBank 3 4).
Proof.
  refine (run_saturates 256 (fun _ b => Ok b)
           (IncrementSelector.mk false)
           [IncrementSelector.Increment; IncrementSelector.Increment;
            IncrementSelector.Increment] (mkBank 1 4) _ _ _);
    cbn; (reflexivity || lia).
Defined.

(* ===================================================================== *)
(** * Further properties of the shift-register input device *)
(* ===================================================================== *)

Section ShiftRegisterLines.

Import ShiftRegisterIn.

Local Open Scope member_scope.

Lemma exec_bindM {A B : Type} (m : M A) (k : A -> M B) (s : State) :
  exec (bindM m k) s = exec (k (eval m s)) (exec m s).
Proof. unfold exec, eval, bindM. destruct (m s). reflexivity. Qed.

Lemma times_S (k : nat) (m : M unit) :
  times (S k) m = bindM m (fun _ => times k m).
Proof. reflexivity. Qed.

(** The lines after [begin]. *)
Lemma begin_run (s : State) :
  exec begin s =
  mkState (buffer s)
    (mkHardware (inputs (hw s)) LOW HIGH HIGH
       (match load (hw s) with LOW => inputs (hw s) | HIGH => storage (hw s)
        end)
       (trace (hw s)
        ++ [ModeSet clockPin OUTPUT; ModeSet clockEnablePin OUTPUT;
            ModeSet loadPin OUTPUT; Wrote clockPin LOW; Wrote loadPin HIGH;
            Wrote clockEnablePin HIGH])).
Proof.
  unfold exec, begin, bindM, ExtIO_digitalWrite, ExtIO_pinMode.
  cbn [snd fst hw buffer ExtIO_digitalWrite_hw ExtIO_pinMode_hw load clock
       clockEnable inputs storage trace].
  rewrite <- !app_assoc. reflexivity.
Qed.

(** Refreshes keep the clock line and the physical inputs, and leave the
    latch high and the clock disabled. *)
Lemma times_refresh_lines (N k : nat) :
  forall s : State,
    clockEnable (hw s) = HIGH ->
    load (hw s) = HIGH ->
    clock (hw (exec (times k (updateBufferedInputs N)) s)) = clock (hw s) /\
    clockEnable (hw (exec (times k (updateBufferedInputs N)) s)) = HIGH /\
    load (hw (exec (times k (updateBufferedInputs N)) s)) = HIGH /\
    inputs (hw (exec (times k (updateBufferedInputs N)) s)) = inputs (hw s).
Proof.
  induction k as [| k IH]; intros s Hce Hload.
  - cbn [times]. unfold exec, ret. cbn [snd]. auto.
  - rewrite times_S, exec_bindM.
    destruct (IH (exec (updateBufferedInputs N) s)) as (Hc & He & Hl & Hi);
      try (rewrite updateBufferedInputs_run; reflexivity).
    rewrite Hc, He, Hl, Hi. rewrite updateBufferedInputs_run.
    cbn [hw clock inputs]. auto.
Qed.

(** After at least one refresh the buffer is a snapshot of the inputs. *)
Lemma times_refresh_buffer (N k : nat) :
  forall s : State,
    buffer (exec (times (S k) (updateBufferedInputs N)) s) =
    to_uint8 (lsb_value (bits_of 8 (inputs (hw s)))).
Proof.
  induction k as [| k IH]; intros s.
  - rewrite times_S, exec_bindM. cbn [times]. unfold exec at 1, ret.
    cbn [snd]. rewrite updateBufferedInputs_run. reflexivity.
  - rewrite times_S, exec_bindM, IH, updateBufferedInputs_run. reflexivity.
Qed.

(** X8.  [begin] followed by any number of refreshes leaves the control
    lines idle: clock low, latch high and the clock disabled, whatever
    the lines were before; the physical inputs are not disturbed, and
    after at least one refresh the buffer is a snapshot of the eight
    inputs. *)
Theorem begin_then_refreshes_idle (N k : nat) (s : State) :
  clock (hw (exec (times k (updateBufferedInputs N)) (exec begin s))) = LOW /\
  clockEnable (hw (exec (times k (updateBufferedInputs N)) (exec begin s)))
    = HIGH /\
  load (hw (exec (times k (updateBufferedInputs N)) (exec begin s))) = HIGH /\
  inputs (hw (exec (times k (updateBufferedInputs N)) (exec begin s)))
    = inputs (hw s) /\
  buffer (exec (times (S k) (updateBufferedInputs N)) (exec begin s))
    = lsb_value (bits_of 8 (inputs (hw s))) /\
  buffer (exec (times 0 (updateBufferedInputs N)) (exec begin s)) = buffer s.
Proof.
  destruct (times_refresh_lines N k (exec begin s)) as (Hc & He & Hl & Hi);
    try (rewrite begin_run; reflexivity).
  rewrite Hc, He, Hl, Hi, times_refresh_buffer, begin_run.
  cbn [hw clock inputs buffer times].
  rewrite to_uint8_lsb_value by (rewrite bits_of_length; lia).
  unfold exec, ret. cbn [snd buffer].
  split; [reflexivity |]. split; [reflexivity |]. split; [reflexivity |].
  split; [reflexivity |]. split; reflexivity.
Qed.

(** X9.  After a refresh the pins 8 to 15 read 0, through [digitalRead]
    and through [digitalReadBuffered], whatever the inputs are and on
    every board: the buffer is one byte, so a device declared with more
    than eight pins sees nothing on the others. *)
Theorem digitalRead_beyond_the_byte
    (int_excess : BinNums.N) (N : nat) (pin : BinNums.N) (s : State) :
  (8 <= pin < 16)%N ->
  eval (digitalRead int_excess pin) (exec (updateBufferedInputs N) s)
    = Ok 0 /\
  eval (digitalReadBuffered int_excess pin) (exec (updateBufferedInputs N) s)
    = Ok 0.
Proof.
  intros Hpin.
  assert (H : bitRead int_excess
                (buffer (exec (updateBufferedInputs N) s)) pin = Ok 0).
  { rewrite bitRead_testbit by (unfold INT_BITS; lia).
    rewrite updateBufferedInputs_run. cbn [buffer].
    unfold to_uint8. change 256 with (2 ^ 8).
    rewrite Z.mod_pow2_bits_high by lia. reflexivity. }
  unfold eval, digitalRead, digitalReadBuffered. cbn [fst]. auto.
Qed.

End ShiftRegisterLines.

(** All sixteen inputs high on a device declared with sixteen pins: pin 9
    reads 0. *)
Lemma digitalRead_beyond_the_byte_witness :
  ShiftRegisterIn.eval (ShiftRegisterIn.digitalRead 16 9)
    (ShiftRegisterIn.exec (ShiftRegisterIn.updateBufferedInputs 16)
       (ShiftRegisterIn.mkState 0
          (ShiftRegisterIn.mkHardware 65535 ShiftRegisterIn.LOW
             ShiftRegisterIn.HIGH ShiftRegisterIn.HIGH 0 []))) = Ok 0.
Proof.
  refine (proj1
    (digitalRead_beyond_the_byte 16 16 9
       (ShiftRegisterIn.mkState 0
          (ShiftRegisterIn.mkHardware 65535 ShiftRegisterIn.LOW
             ShiftRegisterIn.HIGH ShiftRegisterIn.HIGH 0 []))
       _)); cbn; lia.
Defined.
